(** * Identity reconciliation (src/src/index.ts) as a shallow embedding

    The contacts table, the PostgreSQL client used by [identifyCustomer]
    (BEGIN / SELECT / INSERT ... RETURNING / COMMIT / ROLLBACK) and the
    [/identify] POST handler. *)

From Stdlib Require Import List String Ascii Bool Arith NArith ZArith Lia.
Import ListNotations.

(** ** Data model: the [Contact] interface and the [contacts] table row *)

Inductive LinkPrecedence := Primary | Secondary.

Definition LinkPrecedence_eqb (a b : LinkPrecedence) : bool :=
  match a, b with
  | Primary, Primary | Secondary, Secondary => true
  | _, _ => false
  end.

Module Contact.
(** [interface Contact]; timestamps are modelled as natural numbers
    (the value of CURRENT_TIMESTAMP of the inserting transaction). *)
Record t := mk {
  id : nat;
  phoneNumber : option string;
  email : option string;
  linkedId : option nat;
  linkPrecedence : LinkPrecedence;
  createdAt : nat;
  updatedAt : nat;
  deletedAt : option nat
}.
End Contact.
Abbreviation Contact := Contact.t.

(** A JavaScript value as the code reads it from a row object or puts it
    in a list: a string, [null], or [undefined] (a missing property). *)
Inductive JsVal := JsString (s : string) | JsNull | JsUndefined.

(** The inner [contact] object of an [IdentifyResponse] as the code builds
    it, before [res.json]; its lists hold the values the code put there
    ([res.json] writes [undefined] inside an array as [null]). *)
Record IdentifyResponse := mkResponse {
  primaryContactId : nat;
  emails : list JsVal;
  phoneNumbers : list JsVal;
  secondaryContactIds : list nat
}.

(** ** JavaScript value semantics used by the handler and the engine *)

(** Truthiness of an optional string ([email], absent = undefined). *)
Definition str_truthy (s : option string) : bool :=
  match s with Some x => negb (String.eqb x "") | None => false end.

(** Truthiness of an optional number ([phoneNumber]); the phone number is
    modelled as an integer, as it arrives from a JSON body. *)
Definition num_truthy (n : option Z) : bool :=
  match n with Some z => negb (Z.eqb z 0) | None => false end.

(** [x || null] on an optional string. *)
Definition or_null (s : option string) : option string :=
  if str_truthy s then s else None.

Definition digit_char (d : N) : ascii := ascii_of_N (48 + d).

Fixpoint N_digits (fuel : nat) (n : N) (acc : string) : string :=
  match fuel with
  | O => acc
  | S f =>
      let acc' := String (digit_char (N.modulo n 10)) acc in
      if N.ltb n 10 then acc' else N_digits f (N.div n 10) acc'
  end.

(** [Number.prototype.toString()] on a safe integer (|z| <= 2^53 - 1): its
    decimal notation. (Beyond that range JavaScript prints the shortest
    round-trip digits, and from 1e21 on an exponent; the theorems that need
    the phone's exact string assume a safe integer, see [fits_columns].) *)
Definition toString (z : Z) : string :=
  let digits := N_digits (S (N.size_nat (Z.abs_N z))) (Z.abs_N z) "" in
  if Z.ltb z 0 then String "-" digits else digits.

(** [phoneNumber?.toString()]. *)
Definition phone_str (p : option Z) : option string := option_map toString p.

(** [phoneNumber?.toString() || null], the value bound to the SQL
    parameters of the match query and of both INSERTs. *)
Definition phone_param (p : option Z) : option string := or_null (phone_str p).

(** [===] on JavaScript values. *)
Definition js_strict_eq (a b : JsVal) : bool :=
  match a, b with
  | JsString x, JsString y => String.eqb x y
  | JsNull, JsNull | JsUndefined, JsUndefined => true
  | _, _ => false
  end.

(** A text column as node-postgres hands it over: a string or [null]. *)
Definition of_column (v : option string) : JsVal :=
  match v with Some x => JsString x | None => JsNull end.

(** An optional argument: a string, or [undefined] when absent. *)
Definition of_arg (v : option string) : JsVal :=
  match v with Some x => JsString x | None => JsUndefined end.

(** Equality of a stored text value (string or NULL) and a string, used by
    the observations on a store. *)
Definition js_eq (a b : option string) : bool :=
  match a, b with
  | Some x, Some y => String.eqb x y
  | None, None => true
  | _, _ => false
  end.

(** SQL [col = $k]: NULL on either side is never equal. *)
Definition sql_eq (a b : option string) : bool :=
  match a, b with Some x, Some y => String.eqb x y | _, _ => false end.

Definition sql_eq_nat (a : option nat) (b : nat) : bool :=
  match a with Some x => Nat.eqb x b | None => false end.

(** [deletedAt IS NULL]. *)
Definition live (c : Contact) : bool :=
  match Contact.deletedAt c with None => true | Some _ => false end.

(** [ORDER BY createdAt ASC] as a stable insertion sort. PostgreSQL leaves
    the order of rows with equal [createdAt] unspecified; the model keeps
    table order. The concrete scenarios below give every row its own
    timestamp, and the general theorems use only which rows a query
    returns, so neither depends on that choice. *)
Fixpoint insert_by_createdAt (c : Contact) (l : list Contact) : list Contact :=
  match l with
  | [] => [c]
  | d :: l' =>
      if Nat.ltb (Contact.createdAt c) (Contact.createdAt d) then c :: d :: l'
      else d :: insert_by_createdAt c l'
  end.

Definition order_by_createdAt (l : list Contact) : list Contact :=
  fold_left (fun acc c => insert_by_createdAt c acc) l [].

(** [[...new Set(xs)]]: duplicates removed, first occurrences kept in
    order (SameValueZero, which is [===] on strings, null and undefined). *)
Fixpoint dedup_from (seen : list JsVal) (xs : list JsVal) : list JsVal :=
  match xs with
  | [] => []
  | x :: xs' =>
      if existsb (js_strict_eq x) seen then dedup_from seen xs'
      else x :: dedup_from (x :: seen) xs'
  end.

Definition new_Set (xs : list JsVal) : list JsVal := dedup_from [] xs.

(** ** The database and its client *)

Inductive DbError := QueryFailed (code : nat).

(** Committed rows, the SERIAL sequence (not transactional in PostgreSQL),
    the rows seen inside an open transaction, and the number of queries the
    client has issued so far. *)
Record Db := mkDb {
  db_rows : list Contact;
  db_seq : nat;
  db_tx : option (list Contact);
  db_qn : nat
}.

Definition visible (s : Db) : list Contact :=
  match db_tx s with Some r => r | None => db_rows s end.

(** The error-state monad of an [async] function using [client.query]. *)
Definition M (A : Type) : Type := Db -> (DbError + A) * Db.

Definition ret {A} (a : A) : M A := fun s => (inr a, s).
Definition throw {A} (e : DbError) : M A := fun s => (inl e, s).
Definition bind {A B} (m : M A) (k : A -> M B) : M B :=
  fun s => match m s with
           | (inl e, s') => (inl e, s')
           | (inr a, s') => k a s'
           end.
Definition try_catch {A} (m : M A) (h : DbError -> M A) : M A :=
  fun s => match m s with
           | (inl e, s') => h e s'
           | (inr a, s') => (inr a, s')
           end.

Notation "x <- m ;; k" := (bind m (fun x => k))
  (at level 61, m at next level, right associativity).

Section Client.
(** Which query of the call fails, and with which error. *)
Variable fail_at : nat -> option DbError.

Definition bump (s : Db) : Db :=
  mkDb (db_rows s) (db_seq s) (db_tx s) (S (db_qn s)).

(** One [await client.query(...)]: it may reject, otherwise it runs
    [body] on the database. *)
Definition query {A} (body : Db -> A * Db) : M A :=
  fun s => match fail_at (db_qn s) with
           | Some e => (inl e, bump s)
           | None => let '(a, s') := body (bump s) in (inr a, s')
           end.

Definition q_begin : M unit :=
  query (fun s => (tt, mkDb (db_rows s) (db_seq s) (Some (db_rows s)) (db_qn s))).

(** [SELECT * FROM contacts WHERE (email = $1 OR phoneNumber = $2)
     AND deletedAt IS NULL ORDER BY createdAt ASC] *)
Definition select_matching (e p : option string) (rows : list Contact) :=
  order_by_createdAt
    (filter (fun c => (sql_eq (Contact.email c) e
                       || sql_eq (Contact.phoneNumber c) p) && live c) rows).

Definition q_search (e p : option string) : M (list Contact) :=
  query (fun s => (select_matching e p (visible s), s)).

(** [SELECT * FROM contacts WHERE linkedId = $1 AND deletedAt IS NULL
     ORDER BY createdAt ASC] *)
Definition select_linked (i : nat) (rows : list Contact) :=
  order_by_createdAt
    (filter (fun c => sql_eq_nat (Contact.linkedId c) i && live c) rows).

Definition q_linked (i : nat) : M (list Contact) :=
  query (fun s => (select_linked i (visible s), s)).

(** [INSERT INTO contacts (...) VALUES (...) RETURNING *]; the id comes
    from the SERIAL sequence, both timestamps from CURRENT_TIMESTAMP. *)
Definition q_insert (e p : option string) (l : option nat)
    (prec : LinkPrecedence) (now : nat) : M Contact :=
  query (fun s =>
    let c := Contact.mk (db_seq s) p e l prec now now None in
    (c, match db_tx s with
        | Some r => mkDb (db_rows s) (S (db_seq s)) (Some (r ++ [c])) (db_qn s)
        | None => mkDb (db_rows s ++ [c]) (S (db_seq s)) None (db_qn s)
        end)).

Definition q_commit : M unit :=
  query (fun s => (tt, match db_tx s with
                       | Some r => mkDb r (db_seq s) None (db_qn s)
                       | None => s
                       end)).

(** ROLLBACK discards the open transaction. *)
Definition q_rollback : M unit :=
  fun s => (inr tt, mkDb (db_rows s) (db_seq s) None (S (db_qn s))).

(** [c.key] on a row object returned by node-postgres ([result.rows]):
    its keys are the column names PostgreSQL reports, and the columns of
    database.sql are unquoted identifiers, which PostgreSQL folds to lower
    case ([id], [email], [phonenumber], [linkedid], ...). The text columns
    are given here; the code reads [c.id] as [Contact.id]. *)
Definition row_get (c : Contact) (key : string) : JsVal :=
  if String.eqb key "email" then of_column (Contact.email c)
  else if String.eqb key "phonenumber" then of_column (Contact.phoneNumber c)
  else JsUndefined.

(** Step 6: consolidation of [allLinkedContacts]:
    [.filter(c => c.K !== null).map(c => c.K)] under [new Set] for the keys
    [email] and [phoneNumber], and the ids other than the primary's. *)
Definition consolidate (primaryContact : Contact) (all : list Contact)
    : IdentifyResponse :=
  mkResponse (Contact.id primaryContact)
    (new_Set (map (fun c => row_get c "email")
                  (filter (fun c => negb (js_strict_eq (row_get c "email") JsNull)) all)))
    (new_Set (map (fun c => row_get c "phoneNumber")
                  (filter (fun c => negb (js_strict_eq (row_get c "phoneNumber") JsNull)) all)))
    (map Contact.id
         (filter (fun c => negb (Nat.eqb (Contact.id c)
                                         (Contact.id primaryContact))) all)).

(** [email && !allLinkedContacts.some(c => c.email === email)] *)
Definition hasNewEmail (email : option string) (all : list Contact) : bool :=
  str_truthy email
  && negb (existsb (fun c => js_strict_eq (row_get c "email") (of_arg email)) all).

(** [phoneNumber && !allLinkedContacts.some(c => c.phoneNumber === phoneNumber?.toString())] *)
Definition hasNewPhone (phoneNumber : option Z) (all : list Contact) : bool :=
  num_truthy phoneNumber
  && negb (existsb (fun c => js_strict_eq (row_get c "phoneNumber")
                                          (of_arg (phone_str phoneNumber))) all).

(** [async function identifyCustomer(email?, phoneNumber?)]; [now] is
    CURRENT_TIMESTAMP of its transaction. *)
Definition identifyCustomer (email : option string) (phoneNumber : option Z)
    (now : nat) : M IdentifyResponse :=
  try_catch
    (_ <- q_begin ;;
     existingContacts <-
       (if str_truthy email || num_truthy phoneNumber
        then q_search (or_null email) (phone_param phoneNumber)
        else ret []) ;;
     match existingContacts with
     | [] =>
         newContact <- q_insert (or_null email) (phone_param phoneNumber)
                                None Primary now ;;
         _ <- q_commit ;;
         ret (mkResponse (Contact.id newContact)
                (match email with
                 | Some x => if str_truthy email then [JsString x] else []
                 | None => [] end)
                (match phoneNumber with
                 | Some n => if num_truthy phoneNumber then [JsString (toString n)] else []
                 | None => [] end)
                [])
     | primaryContact :: _ =>
         linked <- q_linked (Contact.id primaryContact) ;;
         let all := primaryContact :: linked in
         allLinkedContacts <-
           (if hasNewEmail email all || hasNewPhone phoneNumber all
            then r <- q_insert (or_null email) (phone_param phoneNumber)
                               (Some (Contact.id primaryContact)) Secondary now ;;
                 ret (all ++ [r])
            else ret all) ;;
         _ <- q_commit ;;
         ret (consolidate primaryContact allLinkedContacts)
     end)
    (fun error => _ <- q_rollback ;; throw error).
End Client.

(** ** The contact store seen between calls *)

Record Store := mkStore { rows : list Contact; seq : nat }.

Definition empty_store : Store := mkStore [] 1.

(** One call of [identifyCustomer] on a store, with [fail_at] deciding
    which of its queries reject. *)
Definition identify (fail_at : nat -> option DbError) (email : option string)
    (phoneNumber : option Z) (now : nat) (st : Store)
    : (DbError + IdentifyResponse) * Store :=
  let '(r, s) := identifyCustomer fail_at email phoneNumber now
                   (mkDb (rows st) (seq st) None 0) in
  (r, mkStore (db_rows s) (db_seq s)).

Definition no_failure : nat -> option DbError := fun _ => None.

(** A call during which no query rejects. PostgreSQL also rejects an
    INSERT whose email exceeds VARCHAR(255) or whose phone string exceeds
    VARCHAR(20); theorems about [resolve] that need the INSERT to succeed
    assume [fits_columns]. *)
Definition resolve := identify no_failure.

(** Inputs that fit the columns of database.sql and on which [toString] is
    JavaScript's: an email of at most 255 characters and a phone that is a
    safe integer, whose decimal string has at most 17 characters
    ([toString_safe_length]). *)
Definition fits_columns (email : option string) (phoneNumber : option Z) : Prop :=
  match email with Some x => String.length x <= 255 | None => True end
  /\ match phoneNumber with
     | Some z => (Z.abs z <= 9007199254740991)%Z
     | None => True
     end.

(** ** The [POST /identify] handler *)

Inductive HttpReply :=
  | Status200 (body : IdentifyResponse)
  | Status400 (error : string)
  | Status500 (error : string).

Definition post_identify (fail_at : nat -> option DbError)
    (email : option string) (phoneNumber : option Z) (now : nat) (st : Store)
    : HttpReply * Store :=
  if negb (str_truthy email) && negb (num_truthy phoneNumber)
  then (Status400 "At least one of email or phoneNumber is required", st)
  else match identify fail_at email phoneNumber now st with
       | (inr result, st') => (Status200 result, st')
       | (inl _, st') => (Status500 "Internal server error", st')
       end.

Example toString_ex : toString 123456 = "123456"%string /\ toString (-40) = "-40"%string
                      /\ toString 0 = "0"%string.
Proof. vm_compute. auto. Qed.

(** ** Observations on a store *)

Fixpoint find_contact (i : nat) (rs : list Contact) : option Contact :=
  match rs with
  | [] => None
  | c :: rs' => if Nat.eqb (Contact.id c) i then Some c else find_contact i rs'
  end.

Definition is_primary (c : Contact) : bool :=
  LinkPrecedence_eqb (Contact.linkPrecedence c) Primary.

(** Every live secondary's [linkedId] names a primary contact. *)
Definition forest_ok (rs : list Contact) : bool :=
  forallb (fun c =>
    if live c && negb (is_primary c) then
      match Contact.linkedId c with
      | Some j => match find_contact j rs with
                  | Some d => is_primary d
                  | None => false
                  end
      | None => false
      end
    else true) rs.

(** The live contacts of the cluster rooted at [root]: the root and the
    contacts whose [linkedId] is [root]. *)
Definition cluster_of (root : nat) (rs : list Contact) : list Contact :=
  filter (fun c => live c && (Nat.eqb (Contact.id c) root
                              || sql_eq_nat (Contact.linkedId c) root)) rs.

Definition has_email (x : string) (cs : list Contact) : bool :=
  existsb (fun c => js_eq (Contact.email c) (Some x)) cs.

Definition has_phone (x : string) (cs : list Contact) : bool :=
  existsb (fun c => js_eq (Contact.phoneNumber c) (Some x)) cs.

Definition opt_to_list {A} (o : option A) : list A :=
  match o with Some x => [x] | None => [] end.

(** ** Concrete scenarios *)

Open Scope string_scope.
Open Scope list_scope.

Definition E (s : string) : option string := Some s.
Definition P (z : Z) : option Z := Some z.

(** The scenario of the spec: lorraine/mcfly sharing phone 123456. *)
Definition lorraine_1 := snd (resolve (E "lorraine@hillvalley.edu") (P 123456) 1 empty_store).
Definition lorraine_2 := resolve (E "mcfly@hillvalley.edu") (P 123456) 2 lorraine_1.

Example lorraine_example :
  fst lorraine_2 = inr (mkResponse 1 [JsString "lorraine@hillvalley.edu";
                                      JsString "mcfly@hillvalley.edu"]
                                     [JsUndefined] [2])
  /\ fst (resolve None (P 123456) 3 (snd lorraine_2))
     = inr (mkResponse 1 [JsString "lorraine@hillvalley.edu";
                          JsString "mcfly@hillvalley.edu"]
                         [JsUndefined] [2; 3])
  /\ List.length (rows (snd (resolve None (P 123456) 3 (snd lorraine_2)))) = 3.
Proof. vm_compute. auto. Qed.

(** A cluster {1 primary (e1, 1); 2 secondary (e2, 1)} built from the
    empty store. *)
Definition chain_1 := snd (resolve (E "e1") (P 1) 1 empty_store).
Definition chain_2 := snd (resolve (E "e2") (P 1) 2 chain_1).

(** Two independent primaries A = 1 (e1, 1) and B = 2 (e2, 2). *)
Definition twin_2 := snd (resolve (E "e2") (P 2) 2 chain_1).

(** The cluster {1 (e1, 1); 2 (e2, 1) -> 1; 3 (e1, 3) -> 1}. *)
Definition chain_3 := snd (resolve (E "e1") (P 3) 3 chain_2).

(** A contact (a, "0") stored by the new-customer path. *)
Definition zero_1 := snd (resolve (E "a") (P 0) 1 empty_store).

(** Adding phone 7 to the cluster of [chain_2] through its email e1: the
    store after the call and its view. *)
Definition append_store := snd (resolve (E "e1") (P 7) 3 chain_2).
Definition append_view := mkResponse 1 [JsString "e1"; JsString "e2"] [JsUndefined] [2; 3].
Definition append_contact := Contact.mk 3 (Some "7") (Some "e1") (Some 1) Secondary 3 3 None.

(** ** General lemmas *)

Lemma N_digits_cons (f : nat) (n : N) (a : ascii) (s : string) :
  exists b t, N_digits f n (String a s) = String b t.
Proof.
  revert n a s. induction f as [|f IH]; intros n a s; simpl.
  - eauto.
  - destruct (N.ltb n 10); eauto.
Qed.

Lemma toString_truthy (z : Z) : str_truthy (Some (toString z)) = true.
Proof.
  unfold toString, str_truthy. cbn [N_digits].
  destruct (Z.ltb z 0); [reflexivity|].
  destruct (N.ltb (Z.abs_N z) 10); [reflexivity|].
  destruct (N_digits_cons (N.size_nat (Z.abs_N z)) (Z.abs_N z / 10)
              (digit_char (Z.abs_N z mod 10)) "") as (b & t & ->).
  reflexivity.
Qed.

Lemma N_digits_length (f : nat) (n : N) (acc : string) (k : nat) :
  (n < 10 ^ N.of_nat (S k))%N ->
  String.length (N_digits f n acc) <= S k + String.length acc.
Proof.
  revert n acc k. induction f as [|f IH]; intros n acc k Hn; cbn [N_digits]; [lia|].
  destruct (N.ltb_spec n 10) as [Hlt | Hge]; cbn [String.length]; [lia|].
  destruct k as [|k].
  - cbn in Hn. lia.
  - assert (Hd : (n / 10 < 10 ^ N.of_nat (S k))%N).
    { apply N.Div0.div_lt_upper_bound.
      rewrite Nat2N.inj_succ, N.pow_succ_r' in Hn. exact Hn. }
    specialize (IH (n / 10)%N (String (digit_char (n mod 10)) acc) k Hd).
    cbn [String.length] in IH. lia.
Qed.

(** The decimal string of a safe integer has at most 17 characters, so it
    fits the VARCHAR(20) phone column. *)
Lemma toString_safe_length (z : Z) :
  (Z.abs z <= 9007199254740991)%Z -> String.length (toString z) <= 17.
Proof.
  intros Hz.
  assert (Hn : (Z.abs_N z < 10 ^ N.of_nat 16)%N).
  { apply N2Z.inj_lt. rewrite N2Z.inj_abs_N, N2Z.inj_pow. cbn. lia. }
  pose proof (N_digits_length (S (N.size_nat (Z.abs_N z))) (Z.abs_N z) "" 15 Hn) as H.
  cbn [String.length] in H.
  unfold toString. destruct (Z.ltb z 0); cbn [String.length]; lia.
Qed.

Ltac run_call :=
  unfold identify, identifyCustomer, try_catch, bind, ret, throw, q_begin,
    q_search, q_linked, q_insert, q_commit, q_rollback, query, bump in *;
  repeat (cbn -[select_matching select_linked hasNewEmail hasNewPhone
                consolidate toString or_null phone_param str_truthy
                num_truthy] in *;
          match goal with
          | H : context [match ?x with _ => _ end] |- _ =>
              lazymatch x with
              | match _ with _ => _ end => fail
              | _ => lazymatch type of x with
                     | prod _ _ => fail
                     | _ => destruct x eqn:?
                     end
              end
          end).

(** ** Claims *)

(** C10: [identifyCustomer] never updates a row: whatever its outcome,
    the committed rows after the call are the rows before it followed by
    the rows it inserted. *)
Theorem identify_only_appends :
  forall fail_at email phoneNumber now st r st',
    identify fail_at email phoneNumber now st = (r, st') ->
    exists added, rows st' = rows st ++ added.
Proof.
  intros fail_at email phoneNumber now [rs sq] r st' H.
  run_call; injection H as <- <-; cbn;
    solve [exists []; rewrite app_nil_r; reflexivity | eexists; reflexivity].
Qed.

(** C9: when a query of the unit of work rejects, the call rejects with
    that query's error after ROLLBACK, and the committed rows are those
    before the call. *)
Theorem identify_error_rolls_back :
  forall fail_at email phoneNumber now st err st',
    identify fail_at email phoneNumber now st = (inl err, st') ->
    rows st' = rows st /\ exists n, fail_at n = Some err.
Proof.
  intros fail_at email phoneNumber now [rs sq] err st' H.
  run_call; try discriminate; injection H; intros; subst; cbn; eauto.
Qed.

(** C1: two independent primaries A = 1 (e1, "1") and B = 2 (e2, "2");
    resolving (e1, 2) appends a secondary 3 linked to A but leaves B a
    primary with no [linkedId], and the view has neither e2 nor B's id (its
    phone list is [undefined]: the rows have no [phoneNumber] key). *)
Theorem bridging_call_does_not_merge :
  let r := resolve (E "e1") (P 2) 3 twin_2 in
  option_map Contact.linkPrecedence (find_contact 1 (rows twin_2)) = Some Primary
  /\ option_map Contact.linkPrecedence (find_contact 2 (rows twin_2)) = Some Primary
  /\ fst r = inr (mkResponse 1 [JsString "e1"] [JsUndefined] [3])
  /\ option_map Contact.linkPrecedence (find_contact 2 (rows (snd r))) = Some Primary
  /\ option_map Contact.linkedId (find_contact 2 (rows (snd r))) = Some None.
Proof. vm_compute. repeat split. Qed.

(** C2: from the empty store, (e1, 1), (e2, 1), (e2, 3): the third call
    links the new contact 3 to contact 2, itself a secondary. *)
Theorem secondary_linked_to_secondary :
  let st3 := snd (resolve (E "e2") (P 3) 3 chain_2) in
  forest_ok (rows chain_2) = true
  /\ forest_ok (rows st3) = false
  /\ option_map Contact.linkedId (find_contact 3 (rows st3)) = Some (Some 2)
  /\ option_map Contact.linkPrecedence (find_contact 2 (rows st3)) = Some Secondary.
Proof. vm_compute. repeat split. Qed.

(** C3: in the same call the only matched contact is the secondary 2; the
    working primary reported is 2 itself, not its root 1, and the new
    contact 3 is linked to 2. *)
Theorem working_primary_is_secondary :
  select_matching (E "e2") (phone_param (P 3)) (rows chain_2)
    = filter (fun c => Nat.eqb (Contact.id c) 2) (rows chain_2)
  /\ option_map Contact.linkPrecedence (find_contact 2 (rows chain_2)) = Some Secondary
  /\ option_map Contact.linkedId (find_contact 2 (rows chain_2)) = Some (Some 1)
  /\ fst (resolve (E "e2") (P 3) 3 chain_2)
     = inr (mkResponse 2 [JsString "e2"] [JsUndefined] [3])
  /\ option_map Contact.linkedId (find_contact 3 (rows (snd (resolve (E "e2") (P 3) 3 chain_2))))
     = Some (Some 2).
Proof. vm_compute. repeat split. Qed.

(** C4: a request with neither email nor phone number is answered 400
    ("At least one of email or phoneNumber is required") by the
    [/identify] handler, the only caller of [identifyCustomer], before any
    query: the store is unchanged, whichever queries would fail. *)
Theorem missing_input_rejected_by_handler :
  forall fail_at now st,
    post_identify fail_at None None now st
      = (Status400 "At least one of email or phoneNumber is required", st).
Proof. reflexivity. Qed.

(** C6 (counterexample): a new customer with the empty string as email is
    stored with a null email. *)
Lemma empty_email_stored_null :
  select_matching (or_null (E "")) (phone_param (P 5)) (rows empty_store) = []
  /\ option_map Contact.email
       (find_contact 1 (rows (snd (resolve (E "") (P 5) 1 empty_store)))) = Some None.
Proof. vm_compute. split; reflexivity. Qed.

(** C6 (amended): for an email of at most 255 characters and a phone that
    is a safe integer other than 0, when the match query finds nothing the
    call appends exactly one contact: the next sequence id, primary, no
    [linkedId], email [email || null], phone [phoneNumber?.toString() || null];
    the view is that contact alone. *)
Theorem new_customer_singleton :
  forall email phoneNumber now st,
    fits_columns email phoneNumber ->
    phoneNumber <> Some 0%Z ->
    select_matching (or_null email) (phone_param phoneNumber) (rows st) = [] ->
    resolve email phoneNumber now st
      = (inr (mkResponse (seq st) (map JsString (opt_to_list (or_null email)))
                         (map JsString (opt_to_list (phone_param phoneNumber))) []),
         mkStore (rows st ++ [Contact.mk (seq st) (phone_param phoneNumber)
                                (or_null email) None Primary now now None])
                 (S (seq st))).
Proof.
  intros email phoneNumber now [rs sq] _ Hz Hnone. cbn [rows seq] in *.
  unfold resolve, identify, identifyCustomer, try_catch, bind, ret, q_begin,
    q_search, q_insert, q_commit, query, bump, no_failure.
  cbn -[select_matching str_truthy num_truthy or_null phone_param toString].
  destruct (str_truthy email || num_truthy phoneNumber);
    cbn -[select_matching str_truthy num_truthy or_null phone_param toString];
    [rewrite Hnone|];
    cbn -[str_truthy num_truthy or_null phone_param toString];
    (f_equal; f_equal; f_equal);
    try (destruct email as [x|]; unfold or_null; cbn -[str_truthy];
         [destruct (str_truthy (Some x)) | ]; reflexivity);
    (destruct phoneNumber as [z|]; [|reflexivity]);
    unfold phone_param, phone_str, or_null; cbn [option_map];
    rewrite toString_truthy;
    (assert (num_truthy (Some z) = true) as -> by
       (unfold num_truthy; destruct (Z.eqb_spec z 0); [subst; congruence | reflexivity]));
    reflexivity.
Qed.

(** C5: in the cluster {1 (e1, "1"); 2 (e2, "1") -> 1; 3 (e1, "3") -> 1}
    both e2 and "3" are known, yet resolving (e2, 3) inserts a contact:
    the oldest match is the secondary 2 and only 2 and its own secondaries
    are compared with the input. *)
Theorem known_pair_still_written :
  forest_ok (rows chain_3) = true
  /\ has_email "e2" (cluster_of 1 (rows chain_3)) = true
  /\ has_phone "3" (cluster_of 1 (rows chain_3)) = true
  /\ List.length (rows (snd (resolve (E "e2") (P 3) 4 chain_3))) = S (List.length (rows chain_3)).
Proof. vm_compute. repeat split. Qed.

(** C7: the new customer (a, 0) is stored with phone "0", but the view
    built from the input omits it from [phoneNumbers]. *)
Theorem zero_phone_missing_from_view :
  resolve (E "a") (P 0) 1 empty_store = (inr (mkResponse 1 [JsString "a"] [] []), zero_1)
  /\ option_map Contact.phoneNumber (find_contact 1 (rows zero_1)) = Some (Some "0")
  /\ option_map Contact.linkPrecedence (find_contact 1 (rows zero_1)) = Some Primary.
Proof. vm_compute. repeat split. Qed.

(** C8: (e1, 5) stores phone "5", and a second (e1, 5) finds that row
    with the match query keyed "5"; but the duplicate check reads
    [c.phoneNumber], undefined on the fetched row (its key is
    [phonenumber]), so "5" is taken as new and a second contact
    (e1, "5") is written. *)
Theorem stored_phone_not_recognised :
  let st1 := snd (resolve (E "e1") (P 5) 1 empty_store) in
  rows st1 = [Contact.mk 1 (Some "5") (Some "e1") None Primary 1 1 None]
  /\ select_matching (or_null (E "e1")) (phone_param (P 5)) (rows st1) = rows st1
  /\ map (fun c => row_get c "phoneNumber") (rows st1) = [JsUndefined]
  /\ hasNewPhone (P 5) (rows st1) = true
  /\ rows (snd (resolve (E "e1") (P 5) 2 st1))
     = rows st1 ++ [Contact.mk 2 (Some "5") (Some "e1") (Some 1) Secondary 2 2 None].
Proof. vm_compute. repeat split. Qed.

(** ** Witnesses *)

Lemma new_customer_singleton_witness :
  resolve (E "a") (P 5) 1 empty_store
    = (inr (mkResponse 1 [JsString "a"] [JsString "5"] []),
       mkStore [Contact.mk 1 (Some "5") (Some "a") None Primary 1 1 None] 2).
Proof.
  apply (new_customer_singleton (E "a") (P 5) 1 empty_store);
    [split; simpl; lia | discriminate | vm_compute; reflexivity].
Defined.

Definition fail_insert : nat -> option DbError :=
  fun n => if Nat.eqb n 3 then Some (QueryFailed 3) else None.

Lemma identify_error_rolls_back_witness :
  rows (snd (identify fail_insert (E "e2") (P 3) 3 chain_2)) = rows chain_2
  /\ exists n, fail_insert n = Some (QueryFailed 3).
Proof.
  apply (identify_error_rolls_back fail_insert (E "e2") (P 3) 3 chain_2
           (QueryFailed 3) (snd (identify fail_insert (E "e2") (P 3) 3 chain_2))).
  vm_compute. reflexivity.
Defined.

Lemma identify_only_appends_witness :
  exists added, rows (snd (resolve (E "e2") (P 3) 3 chain_2)) = rows chain_2 ++ added.
Proof.
  apply (identify_only_appends no_failure (E "e2") (P 3) 3 chain_2
           (fst (resolve (E "e2") (P 3) 3 chain_2))
           (snd (resolve (E "e2") (P 3) 3 chain_2))).
  vm_compute. reflexivity.
Defined.

(** ** Further properties of the handler and of [identifyCustomer] *)

(** *** Lists: the ORDER BY sort and [new Set] *)

Lemma in_insert_by_createdAt (c x : Contact) (l : list Contact) :
  In x (insert_by_createdAt c l) <-> x = c \/ In x l.
Proof.
  induction l as [|d l IH]; simpl.
  - intuition congruence.
  - destruct (Nat.ltb (Contact.createdAt c) (Contact.createdAt d)); simpl;
      [intuition congruence | rewrite IH; intuition congruence].
Qed.

Lemma in_fold_insert (x : Contact) (l acc : list Contact) :
  In x (fold_left (fun acc c => insert_by_createdAt c acc) l acc)
  <-> In x l \/ In x acc.
Proof.
  revert acc. induction l as [|c l IH]; intros acc; simpl.
  - tauto.
  - rewrite IH, in_insert_by_createdAt. intuition congruence.
Qed.

Lemma in_order_by_createdAt (x : Contact) (l : list Contact) :
  In x (order_by_createdAt l) <-> In x l.
Proof. unfold order_by_createdAt. rewrite in_fold_insert. simpl. tauto. Qed.

Lemma js_strict_eq_true (a b : JsVal) : js_strict_eq a b = true <-> a = b.
Proof.
  destruct a as [x| |], b as [y| |]; simpl;
    try (split; congruence).
  rewrite String.eqb_eq. split; congruence.
Qed.

Lemma existsb_eqb_In (x : JsVal) (l : list JsVal) :
  existsb (js_strict_eq x) l = true <-> In x l.
Proof.
  rewrite existsb_exists. split.
  - intros (y & Hy & E). apply js_strict_eq_true in E. subst. exact Hy.
  - intros H. exists x. split; [exact H | apply js_strict_eq_true; reflexivity].
Qed.

Lemma JsVal_dec (a b : JsVal) : {a = b} + {a <> b}.
Proof. decide equality. apply string_dec. Qed.

Lemma in_dedup_from (seen xs : list JsVal) (x : JsVal) :
  In x (dedup_from seen xs) <-> In x xs /\ ~ In x seen.
Proof.
  revert seen. induction xs as [|a xs IH]; intros seen; simpl.
  - tauto.
  - destruct (existsb (js_strict_eq a) seen) eqn:Ha.
    + apply existsb_eqb_In in Ha. rewrite IH.
      split; [tauto|]. intros [[<- | H] N]; [contradiction | tauto].
    + assert (~ In a seen) as Ha'.
      { intros H. apply existsb_eqb_In in H. congruence. }
      simpl. rewrite IH. simpl.
      destruct (JsVal_dec a x) as [<- | Nax]; [tauto|].
      split.
      * intros [E | (H & N)]; [congruence | split; [right; exact H | tauto]].
      * intros [[E | H] N]; [congruence | right; split; [exact H | tauto]].
Qed.

Lemma new_Set_In (xs : list JsVal) (x : JsVal) :
  In x (new_Set xs) <-> In x xs.
Proof. unfold new_Set. rewrite in_dedup_from. simpl. tauto. Qed.

Lemma dedup_from_NoDup (seen xs : list JsVal) : NoDup (dedup_from seen xs).
Proof.
  revert seen. induction xs as [|a xs IH]; intros seen; simpl.
  - constructor.
  - destruct (existsb (js_strict_eq a) seen); [apply IH|].
    constructor; [|apply IH].
    rewrite in_dedup_from. simpl. tauto.
Qed.

Lemma new_Set_NoDup (xs : list JsVal) : NoDup (new_Set xs).
Proof. apply dedup_from_NoDup. Qed.

(** *** Consolidation *)

(** The row key [email] is the column's name; [phoneNumber] is not. *)
Lemma row_get_email (c : Contact) :
  row_get c "email" = of_column (Contact.email c).
Proof. reflexivity. Qed.

Lemma row_get_phoneNumber (c : Contact) : row_get c "phoneNumber" = JsUndefined.
Proof. reflexivity. Qed.

Lemma consolidate_email_In (pc c : Contact) (all : list Contact) (x : string) :
  In c all -> Contact.email c = Some x -> In (JsString x) (emails (consolidate pc all)).
Proof.
  intros Hc Hx. cbn [consolidate emails]. apply new_Set_In, in_map_iff.
  exists c. rewrite row_get_email, Hx. split; [reflexivity|].
  apply filter_In. rewrite row_get_email, Hx. split; [exact Hc | reflexivity].
Qed.

Lemma dedup_from_undefined (seen : list JsVal) (l : list Contact) :
  In JsUndefined seen ->
  dedup_from seen (map (fun c => row_get c "phoneNumber") l) = [].
Proof.
  intros Hs. induction l as [|c l IH]; [reflexivity|].
  cbn [map dedup_from]. rewrite row_get_phoneNumber.
  apply existsb_eqb_In in Hs. rewrite Hs. exact IH.
Qed.

(** On the match path the phone list is [[undefined]]: every gathered row
    passes [c.phoneNumber !== null] with the value [undefined]. *)
Lemma consolidate_phones_undefined (pc c : Contact) (all : list Contact) :
  phoneNumbers (consolidate pc (c :: all)) = [JsUndefined].
Proof.
  cbn [consolidate phoneNumbers].
  assert (Hf : forall l : list Contact,
             filter (fun d => negb (js_strict_eq (row_get d "phoneNumber") JsNull)) l = l).
  { induction l as [|d l IH]; [reflexivity|]. cbn [filter].
    rewrite row_get_phoneNumber. cbn [js_strict_eq negb]. rewrite IH. reflexivity. }
  rewrite Hf. unfold new_Set. cbn [map dedup_from existsb].
  rewrite row_get_phoneNumber.
  rewrite dedup_from_undefined; [reflexivity | left; reflexivity].
Qed.

Lemma consolidate_secondary_In (pc c : Contact) (all : list Contact) :
  In c all -> Contact.id c <> Contact.id pc ->
  In (Contact.id c) (secondaryContactIds (consolidate pc all)).
Proof.
  intros Hc Hn. cbn [consolidate secondaryContactIds]. apply in_map, filter_In.
  split; [exact Hc|]. apply negb_true_iff, Nat.eqb_neq, Hn.
Qed.

Lemma of_column_JsString (a : option string) (x : string) :
  js_strict_eq (of_column a) (JsString x) = true -> a = Some x.
Proof.
  destruct a as [y|]; simpl; [intros E; apply String.eqb_eq in E; congruence
                             | discriminate].
Qed.

Ltac call_done H :=
  try discriminate; injection H; intros; subst; cbn [rows seq] in *.

(** *** What one call writes *)

(** Whatever its outcome, a call leaves the committed rows as they were or
    appends exactly one contact: it has the next SERIAL id, the call's
    timestamp as [createdAt] and [updatedAt], no [deletedAt], the email
    [email || null] and the phone [phoneNumber?.toString() || null]. *)
Theorem identify_inserts_at_most_one :
  forall fail_at email phoneNumber now st r st',
    identify fail_at email phoneNumber now st = (r, st') ->
    rows st' = rows st
    \/ exists c, rows st' = rows st ++ [c]
                 /\ Contact.id c = seq st
                 /\ Contact.createdAt c = now /\ Contact.updatedAt c = now
                 /\ Contact.deletedAt c = None
                 /\ Contact.email c = or_null email
                 /\ Contact.phoneNumber c = phone_param phoneNumber.
Proof.
  intros fail_at email phoneNumber now [rs sq] r st' H.
  run_call; call_done H;
    first [left; reflexivity
          | right; eexists; split; [reflexivity|]; repeat split].
Qed.

Lemma consolidate_primary_notin (pc : Contact) (all : list Contact) :
  ~ In (Contact.id pc) (secondaryContactIds (consolidate pc all)).
Proof.
  cbn [consolidate secondaryContactIds]. rewrite in_map_iff.
  intros (c & E & Hc). apply filter_In in Hc as [_ Hc].
  rewrite E, Nat.eqb_refl in Hc. discriminate.
Qed.

Lemma str_truthy_Some (x : string) : x <> "" -> str_truthy (Some x) = true.
Proof.
  intros Hx. unfold str_truthy. apply negb_true_iff, String.eqb_neq, Hx.
Qed.

Lemma num_truthy_Some (z : Z) : z <> 0%Z -> num_truthy (Some z) = true.
Proof. intros Hz. unfold num_truthy. apply negb_true_iff, Z.eqb_neq, Hz. Qed.

Lemma or_null_Some (x : string) : x <> "" -> or_null (Some x) = Some x.
Proof. intros Hx. unfold or_null. rewrite (str_truthy_Some x Hx). reflexivity. Qed.

Lemma phone_param_Some (z : Z) : phone_param (Some z) = Some (toString z).
Proof.
  unfold phone_param, phone_str, or_null. cbn [option_map].
  rewrite toString_truthy. reflexivity.
Qed.

Lemma hasNewEmail_false (x : string) (all : list Contact) :
  x <> "" -> hasNewEmail (Some x) all = false ->
  exists c, In c all /\ Contact.email c = Some x.
Proof.
  intros Hx H. unfold hasNewEmail in H. rewrite (str_truthy_Some x Hx) in H.
  simpl in H. apply negb_false_iff, existsb_exists in H as (c & Hc & E).
  exists c. split; [exact Hc | apply of_column_JsString, E].
Qed.

(** [c.phoneNumber] is [undefined] on every row, so a truthy phone is
    always new. *)
Lemma hasNewPhone_true (z : Z) (all : list Contact) :
  z <> 0%Z -> hasNewPhone (Some z) all = true.
Proof.
  intros Hz. unfold hasNewPhone. rewrite (num_truthy_Some z Hz). simpl.
  induction all as [|c all IH]; [reflexivity|].
  (* [js_strict_eq (row_get c "phoneNumber") _] computes to [false] *)
  exact IH.
Qed.

(** A successful call never lists its primary contact among the
    secondary contacts. *)
Theorem identify_primary_not_secondary :
  forall fail_at email phoneNumber now st v st',
    identify fail_at email phoneNumber now st = (inr v, st') ->
    ~ In (primaryContactId v) (secondaryContactIds v).
Proof.
  intros fail_at email phoneNumber now [rs sq] v st' H.
  run_call; call_done H; first [intros [] | apply consolidate_primary_notin].
Qed.

(** The email and phone lists of a successful call have no duplicates. *)
Theorem identify_lists_NoDup :
  forall fail_at email phoneNumber now st v st',
    identify fail_at email phoneNumber now st = (inr v, st') ->
    NoDup (emails v) /\ NoDup (phoneNumbers v).
Proof.
  intros fail_at email phoneNumber now [rs sq] v st' H.
  run_call; call_done H; cbn [emails phoneNumbers];
    first [split; apply new_Set_NoDup
          | split; repeat constructor; simpl; tauto].
Qed.

(** A successful call reports the request's own email, when non-empty,
    in its view. *)
Theorem identify_reports_email :
  forall fail_at email phoneNumber now st v st',
    identify fail_at email phoneNumber now st = (inr v, st') ->
    forall x, email = Some x -> x <> "" -> In (JsString x) (emails v).
Proof.
  intros fail_at email phoneNumber now [rs sq] v st' H y Ey Hy. subst email.
  run_call; call_done H;
    repeat match goal with
           | Hb : str_truthy (Some ?w) = false, Hw : ?w <> "" |- _ =>
               rewrite (str_truthy_Some w Hw) in Hb; discriminate
           end;
    try (cbn [emails]; left; reflexivity).
  all: first
    [ eapply consolidate_email_In;
        [right; apply in_or_app; right; left; reflexivity
        | cbn [Contact.email]; apply or_null_Some; assumption]
    | match goal with
      | Hb : hasNewEmail (Some ?w) ?all || _ = false, Hw : ?w <> "" |- _ =>
          apply orb_false_iff in Hb as [Hb _];
          destruct (hasNewEmail_false w all Hw Hb) as (c & Hc & Ec);
          eapply consolidate_email_In; eassumption
      end ].
Qed.

(** When a live contact matches the request, the view's phone list is
    [[undefined]] ([null] in the JSON reply), whatever phones the cluster
    stores and whatever phone the request carries: the rows are keyed
    [phonenumber], not [phoneNumber]. *)
Theorem identify_match_path_phones_undefined :
  forall fail_at email phoneNumber now st v st',
    str_truthy email || num_truthy phoneNumber = true ->
    select_matching (or_null email) (phone_param phoneNumber) (rows st) <> [] ->
    identify fail_at email phoneNumber now st = (inr v, st') ->
    phoneNumbers v = [JsUndefined].
Proof.
  intros fail_at email phoneNumber now [rs sq] v st' Ht Hne H.
  cbn [rows] in Hne.
  run_call; call_done H; try congruence.
  all: first [apply consolidate_phones_undefined
             | rewrite <- app_comm_cons; apply consolidate_phones_undefined].
Qed.

(** Every successful call carrying a non-zero phone appends a contact with
    that phone, even when the cluster already stores it: the duplicate
    check never sees a stored phone. *)
Theorem identify_phone_always_inserts :
  forall fail_at email z now st v st',
    z <> 0%Z ->
    identify fail_at email (Some z) now st = (inr v, st') ->
    exists c, rows st' = rows st ++ [c] /\ Contact.phoneNumber c = Some (toString z).
Proof.
  intros fail_at email z now [rs sq] v st' Hz H.
  run_call; call_done H.
  all: try (match goal with
            | Hb : _ || hasNewPhone (Some ?w) ?all = false, Hw : ?w <> 0%Z |- _ =>
                rewrite (hasNewPhone_true w all Hw), orb_true_r in Hb; discriminate
            end).
  all: eexists; split; [reflexivity | cbn [Contact.phoneNumber]; apply phone_param_Some].
Qed.

(** *** The view and the final store *)

Lemma select_linked_In (i : nat) (c : Contact) (rs : list Contact) :
  In c (select_linked i rs)
  <-> In c rs /\ Contact.linkedId c = Some i /\ live c = true.
Proof.
  unfold select_linked. rewrite in_order_by_createdAt, filter_In, andb_true_iff.
  unfold sql_eq_nat. destruct (Contact.linkedId c) as [j|].
  - rewrite Nat.eqb_eq. intuition congruence.
  - intuition discriminate.
Qed.

Lemma select_matching_In (e p : option string) (c : Contact) (rs : list Contact) :
  In c (select_matching e p rs)
  <-> In c rs /\ (sql_eq (Contact.email c) e || sql_eq (Contact.phoneNumber c) p) = true
      /\ live c = true.
Proof.
  unfold select_matching. rewrite in_order_by_createdAt, filter_In, andb_true_iff.
  tauto.
Qed.

Lemma consolidate_secondary_inv (pc : Contact) (all : list Contact) (i : nat) :
  In i (secondaryContactIds (consolidate pc all)) ->
  exists c, In c all /\ Contact.id c = i /\ Contact.id c <> Contact.id pc.
Proof.
  cbn [consolidate secondaryContactIds]. rewrite in_map_iff.
  intros (c & <- & Hc). apply filter_In in Hc as [Hc Hn].
  exists c. repeat split; [exact Hc|]. apply negb_true_iff, Nat.eqb_neq in Hn. exact Hn.
Qed.

(** Every secondary id of a successful call's view is a live contact of
    the store after the call whose [linkedId] is the view's primary. *)
Theorem identify_secondaries_linked :
  forall fail_at email phoneNumber now st v st',
    identify fail_at email phoneNumber now st = (inr v, st') ->
    forall i, In i (secondaryContactIds v) ->
    exists c, In c (rows st') /\ live c = true /\ Contact.id c = i
              /\ Contact.linkedId c = Some (primaryContactId v).
Proof.
  intros fail_at email phoneNumber now [rs sq] v st' H i Hi.
  run_call; call_done H; try contradiction.
  all: apply consolidate_secondary_inv in Hi as (c & Hc & <- & Hn);
       destruct Hc as [<- | Hc]; [contradiction|].
  all: try (apply in_app_or in Hc as [Hc | [<- | []]]).
  all: first
    [ apply select_linked_In in Hc as (Hc & Hl & Hlive);
      exists c; repeat split; try assumption; apply in_or_app; left; exact Hc
    | apply select_linked_In in Hc as (Hc & Hl & Hlive);
      exists c; repeat split; assumption
    | eexists; split; [apply in_or_app; right; left; reflexivity|];
      repeat split ].
Qed.

Lemma new_contact_matches (email : option string) (phoneNumber : option Z) :
  str_truthy email || num_truthy phoneNumber = true ->
  (sql_eq (or_null email) (or_null email)
   || sql_eq (phone_param phoneNumber) (phone_param phoneNumber)) = true.
Proof.
  intros H. destruct phoneNumber as [z|].
  - rewrite phone_param_Some. simpl. rewrite String.eqb_refl. apply orb_true_r.
  - rewrite orb_false_r in H. unfold or_null. rewrite H.
    destruct email as [x|]; [simpl; rewrite String.eqb_refl; reflexivity | discriminate].
Qed.

(** When the request carries a truthy email or phone, the primary of a
    successful call's view is a live contact of the store after the call
    that matches the request's email or phone. *)
Theorem identify_primary_matches_request :
  forall fail_at email phoneNumber now st v st',
    str_truthy email || num_truthy phoneNumber = true ->
    identify fail_at email phoneNumber now st = (inr v, st') ->
    exists c, In c (rows st') /\ live c = true
              /\ Contact.id c = primaryContactId v
              /\ (sql_eq (Contact.email c) (or_null email)
                  || sql_eq (Contact.phoneNumber c) (phone_param phoneNumber)) = true.
Proof.
  intros fail_at email phoneNumber now [rs sq] v st' Ht H.
  assert (Hm := new_contact_matches email phoneNumber Ht).
  run_call; call_done H; try discriminate.
  all: first
    [ eexists; split; [apply in_or_app; right; left; reflexivity|];
      repeat split; exact Hm
    | match goal with
      | Hs : select_matching _ _ _ = ?t :: _ |- _ =>
          assert (Ht' : In t (select_matching (or_null email)
                                (phone_param phoneNumber) rs))
            by (rewrite Hs; left; reflexivity)
      end;
      apply select_matching_In in Ht' as (Hin & Hmt & Hlive);
      eexists; split;
        [first [apply in_or_app; left; exact Hin | exact Hin] |];
      repeat split; assumption ].
Qed.

(** In a store whose [linkedId]s all name ids below the SERIAL counter,
    the view of a successful call covers every live contact linked to its
    primary in the store after the call: its email and (when it is not the
    primary) its id are reported. *)
Theorem identify_view_covers_cluster :
  forall fail_at email phoneNumber now st v st',
    (forall d j, In d (rows st) -> Contact.linkedId d = Some j -> j < seq st) ->
    identify fail_at email phoneNumber now st = (inr v, st') ->
    forall c, In c (rows st') -> live c = true ->
    Contact.linkedId c = Some (primaryContactId v) ->
    (forall x, Contact.email c = Some x -> In (JsString x) (emails v))
    /\ (Contact.id c <> primaryContactId v -> In (Contact.id c) (secondaryContactIds v)).
Proof.
  intros fail_at email phoneNumber now [rs sq] v st' Hfresh H c Hc Hlive Hl.
  cbn [rows seq] in Hfresh.
  run_call; call_done H; cbn [primaryContactId] in *.
  (* new customer: nothing can be linked to the fresh id *)
  all: try (apply in_app_or in Hc as [Hc | [<- | []]];
            [specialize (Hfresh c _ Hc Hl); lia | discriminate]).
  (* existing cluster: [c] is in the gathered list *)
  all: match goal with
       | |- context [consolidate ?t ?all] => assert (Hall : In c all)
       end;
       [ first [apply in_app_or in Hc as [Hc | [<- | []]] | idtac];
         first [ right; apply select_linked_In; repeat split; assumption
               | right; apply in_or_app; left;
                 apply select_linked_In; repeat split; assumption
               | right; apply in_or_app; right; left; reflexivity ]
       | split;
         [ intros x Ex; eapply consolidate_email_In; eassumption
         | intros Hn; apply consolidate_secondary_In; assumption ] ].
Qed.

(** In a store whose ids are all below the SERIAL counter, the contact a
    successful call appends is either the view's primary (a new primary
    with no [linkedId]) or a secondary linked to the view's primary and
    listed among its secondary ids. *)
Theorem identify_new_contact_in_view :
  forall fail_at email phoneNumber now st v st' c,
    (forall d, In d (rows st) -> Contact.id d < seq st) ->
    identify fail_at email phoneNumber now st = (inr v, st') ->
    rows st' = rows st ++ [c] ->
    (Contact.linkPrecedence c = Primary /\ Contact.linkedId c = None
     /\ Contact.id c = primaryContactId v)
    \/ (Contact.linkPrecedence c = Secondary
        /\ Contact.linkedId c = Some (primaryContactId v)
        /\ In (Contact.id c) (secondaryContactIds v)).
Proof.
  intros fail_at email phoneNumber now [rs sq] v st' c Hfresh H Hr.
  cbn [rows seq] in Hfresh.
  run_call; call_done H.
  all: try (apply (f_equal (@List.length Contact)) in Hr;
            rewrite length_app in Hr; simpl in Hr; lia).
  all: apply app_inv_head in Hr; injection Hr as <-.
  all: first [left; repeat split; reflexivity | right; repeat split].
  all: apply consolidate_secondary_In.
  all: [> right; apply in_or_app; right; left; reflexivity | ].
  all: match goal with
       | Hs : select_matching _ _ _ = ?t :: _ |- _ =>
           assert (Ht : In t (select_matching (or_null email)
                                (phone_param phoneNumber) rs))
             by (rewrite Hs; left; reflexivity)
       end.
  all: apply select_matching_In in Ht as (Ht & _).
      specialize (Hfresh _ Ht). cbn. lia.
Qed.

(** When the handler answers 500 the committed rows are those before the
    request. *)
Theorem post_identify_500_unchanged :
  forall fail_at email phoneNumber now st msg st',
    post_identify fail_at email phoneNumber now st = (Status500 msg, st') ->
    rows st' = rows st.
Proof.
  intros fail_at email phoneNumber now st msg st' H.
  unfold post_identify in H.
  destruct (negb (str_truthy email) && negb (num_truthy phoneNumber));
    [discriminate|].
  destruct (identify fail_at email phoneNumber now st) as [[err|res] st0] eqn:Hi;
    injection H; intros; subst; [|discriminate].
  destruct st as [rs sq].
  run_call; call_done Hi; reflexivity.
Qed.

(** *** Repeating a call *)

(** A call with a non-empty email and no phone on a store holding a live
    contact with that email writes nothing: the oldest match has the email,
    so [hasNewEmail] is false, and [hasNewPhone] is false without a phone. *)
Lemma email_known_no_write (x : string) (now : nat) (st : Store) (c : Contact) :
  x <> "" -> In c (rows st) -> live c = true -> Contact.email c = Some x ->
  exists v, resolve (Some x) None now st = (inr v, st).
Proof.
  intros Hx Hc Hl He. destruct st as [rs sq]. cbn [rows] in Hc.
  assert (Ex : String.eqb x "" = false) by (apply String.eqb_neq; exact Hx).
  unfold resolve, identify, identifyCustomer, try_catch, bind, ret, q_begin,
    q_search, q_linked, q_insert, q_commit, query, bump, no_failure.
  cbn -[select_matching select_linked hasNewEmail hasNewPhone consolidate].
  rewrite ?Ex, ?(or_null_Some x Hx).
  cbn -[select_matching select_linked hasNewEmail hasNewPhone consolidate].
  destruct (select_matching (Some x) None rs) as [|p rest] eqn:Hs.
  - exfalso.
    assert (Hin : In c (select_matching (Some x) None rs)).
    { apply select_matching_In. rewrite He. cbn. rewrite String.eqb_refl.
      repeat split; assumption. }
    rewrite Hs in Hin. exact Hin.
  - assert (Hp : In p (select_matching (Some x) None rs))
      by (rewrite Hs; left; reflexivity).
    apply select_matching_In in Hp as (_ & Hm & _).
    assert (Ep : Contact.email p = Some x).
    { destruct (Contact.email p) as [y|], (Contact.phoneNumber p) as [w|];
        cbn in Hm; try discriminate; rewrite ?orb_false_r in Hm;
        apply String.eqb_eq in Hm; congruence. }
    assert (Hn : forall l, hasNewEmail (Some x) (p :: l) = false).
    { intros l.
      unfold hasNewEmail. rewrite (str_truthy_Some x Hx). cbn [existsb].
      rewrite row_get_email, Ep. cbn. rewrite String.eqb_refl. reflexivity. }
    rewrite Hn.
    cbn -[select_matching select_linked consolidate].
    eexists. reflexivity.
Qed.

Lemma match_email_only (x : string) (c : Contact) :
  x <> "" ->
  (sql_eq (Contact.email c) (or_null (Some x))
   || sql_eq (Contact.phoneNumber c) (phone_param None)) = true ->
  Contact.email c = Some x.
Proof.
  intros Hx Hm. rewrite (or_null_Some x Hx) in Hm.
  destruct (Contact.email c) as [y|], (Contact.phoneNumber c) as [w|];
    cbn in Hm; try discriminate; rewrite ?orb_false_r in Hm;
    apply String.eqb_eq in Hm; congruence.
Qed.

(** Repeating a successful call that carries a non-empty email and no
    phone: the second call writes nothing (the rows and the SERIAL counter
    are those left by the first call). *)
Theorem email_only_repeat_no_write :
  forall x now now' st v st',
    x <> "" ->
    resolve (Some x) None now st = (inr v, st') ->
    exists v', resolve (Some x) None now' st' = (inr v', st').
Proof.
  intros x now now' [rs sq] v st' Hx H.
  assert (Hk : exists c, In c (rows st') /\ live c = true /\ Contact.email c = Some x).
  { unfold resolve in H. run_call; call_done H.
    all: first
      [ eexists; split; [apply in_or_app; right; left; reflexivity|];
        split; [reflexivity | cbn [Contact.email]; apply or_null_Some, Hx]
      | match goal with
        | Hs : select_matching _ _ _ = ?t :: _ |- _ =>
            assert (Ht : In t (select_matching (or_null (Some x))
                                 (phone_param None) rs))
              by (rewrite Hs; left; reflexivity)
        end;
        apply select_matching_In in Ht as (Hin & Hm & Hlive);
        exists t; split;
          [first [apply in_or_app; left; exact Hin | exact Hin] |];
        split; [exact Hlive | exact (match_email_only x t Hx Hm)] ]. }
  destruct Hk as (c & Hc & Hl & He).
  exact (email_known_no_write x now' st' c Hx Hc Hl He).
Qed.

(** ** Witnesses of the further properties *)

Lemma identify_inserts_at_most_one_witness :
  rows append_store = rows chain_2
  \/ exists c, rows append_store = rows chain_2 ++ [c]
               /\ Contact.id c = seq chain_2
               /\ Contact.createdAt c = 3 /\ Contact.updatedAt c = 3
               /\ Contact.deletedAt c = None
               /\ Contact.email c = or_null (E "e1")
               /\ Contact.phoneNumber c = phone_param (P 7).
Proof.
  apply (identify_inserts_at_most_one no_failure (E "e1") (P 7) 3 chain_2
           (inr append_view) append_store).
  vm_compute. reflexivity.
Defined.

Lemma identify_primary_not_secondary_witness :
  ~ In (primaryContactId append_view) (secondaryContactIds append_view).
Proof.
  apply (identify_primary_not_secondary no_failure (E "e1") (P 7) 3 chain_2
           append_view append_store).
  vm_compute. reflexivity.
Defined.

Lemma identify_lists_NoDup_witness :
  NoDup (emails append_view) /\ NoDup (phoneNumbers append_view).
Proof.
  apply (identify_lists_NoDup no_failure (E "e1") (P 7) 3 chain_2
           append_view append_store).
  vm_compute. reflexivity.
Defined.

Lemma identify_reports_email_witness :
  In (JsString "e1") (emails append_view).
Proof.
  apply (identify_reports_email no_failure (E "e1") (P 7) 3 chain_2
           append_view append_store);
    [vm_compute; reflexivity | reflexivity | discriminate].
Defined.

Lemma identify_match_path_phones_undefined_witness :
  phoneNumbers append_view = [JsUndefined].
Proof.
  apply (identify_match_path_phones_undefined no_failure (E "e1") (P 7) 3 chain_2
           append_view append_store);
    [reflexivity | vm_compute; discriminate | vm_compute; reflexivity].
Defined.

Lemma identify_phone_always_inserts_witness :
  exists c, rows (snd (resolve (E "e1") (P 1) 3 chain_2)) = rows chain_2 ++ [c]
            /\ Contact.phoneNumber c = Some (toString 1).
Proof.
  apply (identify_phone_always_inserts no_failure (E "e1") 1 3 chain_2
           (mkResponse 1 [JsString "e1"; JsString "e2"] [JsUndefined] [2; 3])
           (snd (resolve (E "e1") (P 1) 3 chain_2)));
    [discriminate | vm_compute; reflexivity].
Defined.

Lemma identify_secondaries_linked_witness :
  exists c, In c (rows append_store) /\ live c = true /\ Contact.id c = 3
            /\ Contact.linkedId c = Some (primaryContactId append_view).
Proof.
  apply (identify_secondaries_linked no_failure (E "e1") (P 7) 3 chain_2
           append_view append_store).
  - vm_compute. reflexivity.
  - vm_compute. tauto.
Defined.

Lemma identify_primary_matches_request_witness :
  exists c, In c (rows append_store) /\ live c = true
            /\ Contact.id c = primaryContactId append_view
            /\ (sql_eq (Contact.email c) (or_null (E "e1"))
                || sql_eq (Contact.phoneNumber c) (phone_param (P 7))) = true.
Proof.
  apply (identify_primary_matches_request no_failure (E "e1") (P 7) 3 chain_2
           append_view append_store); vm_compute; reflexivity.
Defined.

Lemma identify_view_covers_cluster_witness :
  (forall x, Contact.email append_contact = Some x -> In (JsString x) (emails append_view))
  /\ (Contact.id append_contact <> primaryContactId append_view ->
      In (Contact.id append_contact) (secondaryContactIds append_view)).
Proof.
  apply (identify_view_covers_cluster no_failure (E "e1") (P 7) 3 chain_2
           append_view append_store).
  - intros d j Hd Hj. vm_compute in Hd.
    destruct Hd as [<- | [<- | []]]; vm_compute in Hj;
      [discriminate | injection Hj as <-; vm_compute; lia].
  - vm_compute. reflexivity.
  - vm_compute. tauto.
  - vm_compute. reflexivity.
  - vm_compute. reflexivity.
Defined.

Lemma identify_new_contact_in_view_witness :
  (Contact.linkPrecedence append_contact = Primary
   /\ Contact.linkedId append_contact = None
   /\ Contact.id append_contact = primaryContactId append_view)
  \/ (Contact.linkPrecedence append_contact = Secondary
      /\ Contact.linkedId append_contact = Some (primaryContactId append_view)
      /\ In (Contact.id append_contact) (secondaryContactIds append_view)).
Proof.
  apply (identify_new_contact_in_view no_failure (E "e1") (P 7) 3 chain_2
           append_view append_store append_contact).
  - intros d Hd. vm_compute in Hd.
    destruct Hd as [<- | [<- | []]]; vm_compute; lia.
  - vm_compute. reflexivity.
  - vm_compute. reflexivity.
Defined.

Lemma post_identify_500_unchanged_witness :
  rows (snd (post_identify fail_insert (E "e1") (P 7) 3 chain_2)) = rows chain_2.
Proof.
  apply (post_identify_500_unchanged fail_insert (E "e1") (P 7) 3 chain_2
           "Internal server error"
           (snd (post_identify fail_insert (E "e1") (P 7) 3 chain_2))).
  vm_compute. reflexivity.
Defined.

Lemma email_only_repeat_no_write_witness :
  exists v', resolve (E "e9") None 5 (snd (resolve (E "e9") None 4 chain_2))
             = (inr v', snd (resolve (E "e9") None 4 chain_2)).
Proof.
  apply (email_only_repeat_no_write "e9" 4 5 chain_2
           (mkResponse 3 [JsString "e9"] [] [])
           (snd (resolve (E "e9") None 4 chain_2)));
    [discriminate | vm_compute; reflexivity].
Defined.
